(** * Similar-Coordinate-QGIS: the clustering pipeline of
      [FindSimilarCoordinatesAlgorithm.processAlgorithm]

    The algorithm buffers every input point, dissolves the buffers, splits
    the dissolved geometry into single parts, numbers the parts, and joins
    every input point back to the part it intersects, together with the
    number of points of that part.

    The geometry itself (buffering, union, intersection tests, the spatial
    index) is done by the QGIS library, which the script only calls.  The
    pipeline is therefore embedded over an interface [GeometryEngine] that
    lists exactly the library calls the script makes; everything the script
    computes on its own (lists, the counter, the set, the dictionary, the
    output attributes) is embedded as written. *)

From Stdlib Require Import ZArith QArith List Lia.
From stdpp Require Import gmap strings list fin_maps fin_sets.

Open Scope Z_scope.

(** ** Values and exceptions *)

(** Attribute values of a feature ([QVariant]); Python's [None] is [QNull]. *)
Inductive QVariant :=
| QNull
| QInt (z : Z)
| QDouble (q : Q)
| QString (s : string).

(** The only exception the script's own arithmetic can raise. *)
Inductive exn := ZeroDivisionError.

Inductive outcome (A : Type) :=
| Completed (a : A)
| Raised (e : exn).
Arguments Completed {A} a.
Arguments Raised {A} e.

#[global] Instance outcome_ret : MRet outcome := @Completed.
#[global] Instance outcome_bind : MBind outcome := λ A B f m,
  match m with
  | Completed a => f a
  | Raised e => Raised e
  end.

#[global] Instance outcome_fmap : FMap outcome := λ A B f m,
  match m with
  | Completed a => Completed (f a)
  | Raised e => Raised e
  end.

(** The default of the parameter [DISTANCE], 0.00005 degrees. *)
Definition default_distance : Q := 5 # 100000.

(** ** The library calls of the script *)

Class GeometryEngine := {
  QgsGeometry : Type;
  QgsRectangle : Type;
  QgsSpatialIndex : Type;
  (** [geometry.buffer(distance, segments)] *)
  buffer : QgsGeometry → Q → Z → QgsGeometry;
  (** [QgsGeometry.unaryUnion(geometries)] *)
  unaryUnion : list QgsGeometry → QgsGeometry;
  (** [geometry.isMultipart()] *)
  isMultipart : QgsGeometry → bool;
  (** [geometry.asGeometryCollection()] *)
  asGeometryCollection : QgsGeometry → list QgsGeometry;
  (** [a.intersects(b)] *)
  intersects : QgsGeometry → QgsGeometry → bool;
  (** [geometry.boundingBox()] *)
  boundingBox : QgsGeometry → QgsRectangle;
  (** [QgsSpatialIndex()] *)
  emptyIndex : QgsSpatialIndex;
  (** [index.addFeature(feature)]: the feature's id and geometry *)
  indexAddFeature : QgsSpatialIndex → Z → QgsGeometry → QgsSpatialIndex;
  (** [index.intersects(rectangle)]: a list of feature ids *)
  indexIntersects : QgsSpatialIndex → QgsRectangle → list Z
}.

(** ** Features and layers *)

(** A feature of the input layer or of the output sink. *)
Record Feature `{GeometryEngine} := mkFeature {
  geometry : QgsGeometry;
  attributes : list QVariant
}.
Arguments mkFeature {_} geometry attributes.

(** A feature of the in-memory layer "singleparts": the id the provider gave
    it, its geometry and its one attribute, [location_id]. *)
Record Singlepart `{GeometryEngine} := mkSinglepart {
  sp_id : Z;
  sp_geometry : QgsGeometry;
  location_id : Z
}.
Arguments mkSinglepart {_} sp_id sp_geometry location_id.

(** What a run leaves behind: the singlepart layer, the dictionary
    [location_id_count] and the features written to the sink. *)
Record Run `{GeometryEngine} := mkRun {
  singlepart_layer : list Singlepart;
  location_id_count : gmap Z Z;
  sink : list Feature
}.
Arguments mkRun {_} singlepart_layer location_id_count sink.

Section Pipeline.
Context `{GeometryEngine}.

(** *** Step 1: one buffer per feature *)

(** [index / num_features] of the progress report.  The reported value is
    advisory and not kept; the division raises when the count is zero. *)
Definition progress_fraction (index num_features : Z) : outcome unit :=
  if num_features =? 0 then Raised ZeroDivisionError else Completed tt.

Fixpoint buffer_loop (features : list Feature) (index num_features : Z)
    (buffer_distance : Q) (feature_buffers : list QgsGeometry)
    : outcome (list QgsGeometry) :=
  match features with
  | [] => Completed feature_buffers
  | feature :: rest =>
      let buffer_geom := buffer (geometry feature) buffer_distance 5 in
      let feature_buffers := feature_buffers ++ [buffer_geom] in
      _ ← progress_fraction index num_features;
      buffer_loop rest (index + 1) num_features buffer_distance feature_buffers
  end.

Definition create_buffers (input_layer : list Feature) (buffer_distance : Q)
    : outcome (list QgsGeometry) :=
  let num_features := Z.of_nat (length input_layer) in
  buffer_loop input_layer 0 num_features buffer_distance [].

(** *** Step 3: the dissolved geometry as single parts *)

Definition to_singleparts (dissolved_geometry : QgsGeometry) : list QgsGeometry :=
  if isMultipart dissolved_geometry
  then asGeometryCollection dissolved_geometry
  else [dissolved_geometry].

(** *** Step 4: the singlepart layer *)

(** [provider.addFeature]: the memory provider stores the feature under the
    next free feature id, counting from 1. *)
Definition addFeature (layer : list Singlepart) (geom : QgsGeometry)
    (location_id : Z) : list Singlepart :=
  layer ++ [mkSinglepart (Z.of_nat (length layer) + 1) geom location_id].

Fixpoint number_singleparts (singlepart_geometries : list QgsGeometry)
    (location_id : Z) (layer : list Singlepart) : list Singlepart :=
  match singlepart_geometries with
  | [] => layer
  | geom :: rest =>
      number_singleparts rest (location_id + 1) (addFeature layer geom location_id)
  end.

(** *** Step 5: the spatial index *)

Definition build_index (layer : list Singlepart) : QgsSpatialIndex :=
  foldl (λ spatial_index feature,
           indexAddFeature spatial_index (sp_id feature) (sp_geometry feature))
        emptyIndex layer.

(** [singlepart_layer.getFeature(id)].  For an id the layer does not hold,
    QGIS hands back an invalid feature without geometry, which intersects
    nothing: the caller skips it. *)
Definition getFeature (layer : list Singlepart) (id : Z) : option Singlepart :=
  find (λ feature, sp_id feature =? id) layer.

(** [min(location_ids)] of a set the caller has checked to be non-empty. *)
Definition set_min (location_ids : gset Z) : Z :=
  match elements location_ids with
  | [] => 0
  | x :: xs => foldl Z.min x xs
  end.

(** *** Step 6: the tally *)

(** The set [location_ids] of one iteration of the tally loop. *)
Definition tally_location_ids (layer : list Singlepart)
    (spatial_index : QgsSpatialIndex) (geom : QgsGeometry) : gset Z :=
  let intersecting_ids := indexIntersects spatial_index (boundingBox geom) in
  foldl (λ (location_ids : gset Z) id,
           match getFeature layer id with
           | Some singlepart_feature =>
               if intersects (sp_geometry singlepart_feature) geom
               then location_ids ∪ {[ location_id singlepart_feature ]}
               else location_ids
           | None => location_ids
           end)
        ∅ intersecting_ids.

(** One iteration of the tally loop: the assigned id and the dictionary. *)
Definition tally_feature (layer : list Singlepart)
    (spatial_index : QgsSpatialIndex) (count : gmap Z Z)
    (input_feature : Feature) : option Z * gmap Z Z :=
  let geom := geometry input_feature in
  let location_ids := tally_location_ids layer spatial_index geom in
  if bool_decide (location_ids ≠ ∅) then
    let assigned_location_id := set_min location_ids in
    match count !! assigned_location_id with
    | Some c => (Some assigned_location_id, <[assigned_location_id := c + 1]> count)
    | None => (Some assigned_location_id, <[assigned_location_id := 1]> count)
    end
  else (None, count).

Definition tally (layer : list Singlepart) (spatial_index : QgsSpatialIndex)
    (input_layer : list Feature) : gmap Z Z :=
  foldl (λ count input_feature,
           snd (tally_feature layer spatial_index count input_feature))
        ∅ input_layer.

(** *** Step 7: the output features *)

(** The set [location_ids] of one iteration of the output loop. *)
Definition emit_location_ids (layer : list Singlepart)
    (spatial_index : QgsSpatialIndex) (geom : QgsGeometry) : gset Z :=
  let intersecting_ids := indexIntersects spatial_index (boundingBox geom) in
  foldl (λ (location_ids : gset Z) id,
           match getFeature layer id with
           | Some singlepart_feature =>
               if intersects (sp_geometry singlepart_feature) geom
               then location_ids ∪ {[ location_id singlepart_feature ]}
               else location_ids
           | None => location_ids
           end)
        ∅ intersecting_ids.

(** [assigned_location_id] and [count_id] of one iteration. *)
Definition emit_assignment (layer : list Singlepart)
    (spatial_index : QgsSpatialIndex) (count : gmap Z Z)
    (input_feature : Feature) : option Z * Z :=
  let geom := geometry input_feature in
  let location_ids := emit_location_ids layer spatial_index geom in
  if bool_decide (location_ids ≠ ∅) then
    let assigned_location_id := set_min location_ids in
    let count_id := default 0 (count !! assigned_location_id) in
    (Some assigned_location_id, count_id)
  else (None, 0).

(** An optional integer as an attribute value. *)
Definition variant_of (assigned_location_id : option Z) : QVariant :=
  match assigned_location_id with
  | Some z => QInt z
  | None => QNull
  end.

Definition emit_feature (layer : list Singlepart)
    (spatial_index : QgsSpatialIndex) (count : gmap Z Z)
    (input_feature : Feature) : Feature :=
  let '(assigned_location_id, count_id) :=
    emit_assignment layer spatial_index count input_feature in
  mkFeature (geometry input_feature)
            (attributes input_feature
               ++ [variant_of assigned_location_id; QInt count_id]).

(** [sink.addFeature] appends; the loop runs over the input in its order. *)
Definition emit (layer : list Singlepart) (spatial_index : QgsSpatialIndex)
    (count : gmap Z Z) (input_layer : list Feature) : list Feature :=
  foldl (λ sink input_feature,
           sink ++ [emit_feature layer spatial_index count input_feature])
        [] input_layer.

(** *** The whole run *)

Definition processAlgorithm (input_layer : list Feature) (buffer_distance : Q)
    : outcome Run :=
  feature_buffers ← create_buffers input_layer buffer_distance;
  let dissolved_geometry := unaryUnion feature_buffers in
  let singlepart_geometries := to_singleparts dissolved_geometry in
  let layer := number_singleparts singlepart_geometries 1 [] in
  let spatial_index := build_index layer in
  let count := tally layer spatial_index input_layer in
  let written := emit layer spatial_index count input_layer in
  mret (mkRun layer count written).

End Pipeline.

(** ** A geometry engine on the rational line

    A small engine to run the pipeline on: geometries are finite unions of
    closed intervals of the rational line.  A point is an interval of length
    zero, a polygon an interval of positive length.  It is used for the
    worked examples and for the concrete runs below; the theorems about the
    pipeline hold for every engine. *)

Module Line.

Definition span : Type := Q * Q.

(** [multi]: the geometry has a multi-part type; [spans]: its parts. *)
Record geom := mkGeom {
  multi : bool;
  spans : list span
}.

Definition point (x : Q) : geom := mkGeom false [(x, x)].

Definition has_area (s : span) : bool := negb (Qle_bool (snd s) (fst s)).

Definition widen (d : Q) (s : span) : span := (fst s - d, snd s + d)%Q.

(** Buffering widens every part by the distance and keeps the parts that
    have an interior: with a distance of zero or less a point leaves
    nothing. *)
Definition line_buffer (g : geom) (d : Q) (segments : Z) : geom :=
  mkGeom (multi g) (List.filter has_area (map (widen d) (spans g))).

Fixpoint insert_span (s : span) (l : list span) : list span :=
  match l with
  | [] => [s]
  | t :: r => if Qle_bool (fst s) (fst t) then s :: l else t :: insert_span s r
  end.

Definition sort_spans (l : list span) : list span := foldr insert_span [] l.

Fixpoint merge_sorted (cur : span) (l : list span) : list span :=
  match l with
  | [] => [cur]
  | t :: r =>
      if Qle_bool (fst t) (snd cur)
      then merge_sorted (fst cur, if Qle_bool (snd cur) (snd t) then snd t else snd cur) r
      else cur :: merge_sorted t r
  end.

Definition merge_spans (l : list span) : list span :=
  match sort_spans l with
  | [] => []
  | s :: r => merge_sorted s r
  end.

(** The union is made of the maximal intervals covered by the inputs.  With
    exactly one of them it is a single polygon; otherwise it is a
    collection: of several parts, or of none when there is nothing to unite
    (no input, or only inputs without parts), as the empty geometry
    collection that the library's union returns then. *)
Definition line_union (gs : list geom) : geom :=
  let parts := merge_spans (flat_map spans gs) in
  mkGeom (negb (Z.of_nat (length parts) =? 1)) parts.

Definition line_parts (g : geom) : list geom :=
  map (λ s, mkGeom false [s]) (spans g).

Definition overlap (s t : span) : bool :=
  Qle_bool (fst s) (snd t) && Qle_bool (fst t) (snd s).

Definition line_intersects (a b : geom) : bool :=
  existsb (λ s, existsb (overlap s) (spans b)) (spans a).

Definition hull (s t : span) : span :=
  (if Qle_bool (fst s) (fst t) then fst s else fst t,
   if Qle_bool (snd s) (snd t) then snd t else snd s).

(** The bounding box of a geometry without parts is the null rectangle. *)
Definition line_box (g : geom) : option span :=
  match spans g with
  | [] => None
  | s :: r => Some (foldl hull s r)
  end.

(** The index keeps the bounding box of every feature that has one. *)
Definition line_index : Type := list (Z * span).

Definition line_index_add (idx : line_index) (id : Z) (g : geom) : line_index :=
  match line_box g with
  | Some box => (id, box) :: idx
  | None => idx
  end.

Definition line_index_query (idx : line_index) (box : option span) : list Z :=
  match box with
  | Some b => map fst (List.filter (λ e, overlap (snd e) b) idx)
  | None => []
  end.

#[export] Instance engine : GeometryEngine := {|
  QgsGeometry := geom;
  QgsRectangle := option span;
  QgsSpatialIndex := line_index;
  buffer := line_buffer;
  unaryUnion := line_union;
  isMultipart := multi;
  asGeometryCollection := line_parts;
  intersects := line_intersects;
  boundingBox := line_box;
  emptyIndex := [];
  indexAddFeature := line_index_add;
  indexIntersects := line_index_query
|}.

(** An input feature at coordinate [x] with one attribute. *)
Definition feature_at (x : Q) (name : string) : Feature :=
  mkFeature (point x) [QString name].

(** An input feature whose geometry is empty. *)
Definition empty_feature (name : string) : Feature :=
  mkFeature (mkGeom false []) [QString name].

(** A singlepart layer with two regions, its index, and the same index
    with one more entry: a box around everything under an id the layer does
    not hold. *)
Definition two_regions : list Singlepart :=
  [mkSinglepart 1 (mkGeom false [(0, 2)%Q]) 1;
   mkSinglepart 2 (mkGeom false [(5, 7)%Q]) 2].

Definition two_regions_index : line_index := build_index two_regions.

Definition index_with_stale_entry : line_index :=
  line_index_add two_regions_index 9 (mkGeom false [(0, 10)%Q]).

End Line.

(** ** Specification-side notions

    What the claims speak of, stated without reference to how the loops
    compute it. *)

Section Notions.
Context `{GeometryEngine}.

(** [x] is the [location_id] of a singlepart that the index reports for
    the bounding box of [geom] and whose geometry intersects [geom]. *)
Definition exactly_intersecting (layer : list Singlepart)
    (spatial_index : QgsSpatialIndex) (geom : QgsGeometry) (x : Z) : Prop :=
  ∃ id singlepart_feature,
    id ∈ indexIntersects spatial_index (boundingBox geom)
    ∧ getFeature layer id = Some singlepart_feature
    ∧ intersects (sp_geometry singlepart_feature) geom = true
    ∧ location_id singlepart_feature = x.

(** [a] is the least element of the property [P], or [None] when nothing
    has the property. *)
Definition least_or_none (P : Z → Prop) (a : option Z) : Prop :=
  match a with
  | Some m => P m ∧ ∀ x, P x → m ≤ x
  | None => ∀ x, ¬ P x
  end.

(** The assignment of a point as the tally loop computes it. *)
Definition tally_assignment (layer : list Singlepart)
    (spatial_index : QgsSpatialIndex) (input_feature : Feature) : option Z :=
  fst (tally_feature layer spatial_index ∅ input_feature).

(** The number of input points the tally loop assigns to [R]. *)
Definition points_assigned (layer : list Singlepart)
    (spatial_index : QgsSpatialIndex) (input_layer : list Feature) (R : Z) : Z :=
  Z.of_nat (length (filter (λ f, tally_assignment layer spatial_index f = Some R)
                           input_layer)).


(** The buffers of a run, in input order. *)
Definition buffers_of (input_layer : list Feature) (buffer_distance : Q)
    : list QgsGeometry :=
  map (λ feature, buffer (geometry feature) buffer_distance 5) input_layer.


End Notions.

(** ** The output schema and how the output is read *)

(** The field types the script names ([QVariant.Int]) and those of the
    attribute values of [QVariant]. *)
Inductive QVariantType := TInt | TDouble | TString.

(** [QgsField(name, type)]. *)
Record QgsField := mkField {
  field_name : string;
  field_type : QVariantType
}.

(** [fields.append(field)].  [QgsFields] keeps its names distinct: a field
    whose name is already taken is not added (the call answers [False],
    which the script does not look at). *)
Definition fields_append (fields : list QgsField) (field : QgsField)
    : list QgsField :=
  if bool_decide (field_name field ∈ field_name <$> fields)
  then fields
  else fields ++ [field].

(** Lines 53-56: the fields of the output layer. *)
Definition output_fields (input_fields : list QgsField) : list QgsField :=
  let output_fields := input_fields in
  let output_fields := fields_append output_fields (mkField "location_id" TInt) in
  fields_append output_fields (mkField "count_id" TInt).

(** The position of the field called [name], as a reader of the output
    looks it up. *)
Fixpoint field_index (fields : list QgsField) (name : string) : option nat :=
  match fields with
  | [] => None
  | field :: rest =>
      if bool_decide (field_name field = name) then Some 0%nat
      else S <$> field_index rest name
  end.

(** The schema of a layer whose features have the one attribute [name]. *)
Definition name_only : list QgsField := [mkField "name" TString].

#[global] Instance Q_eq_dec : EqDecision Q.
Proof. solve_decision. Defined.

#[global] Instance QVariant_eq_dec : EqDecision QVariant.
Proof. solve_decision. Defined.

Section Reading.
Context `{GeometryEngine}.

(** The two values the output loop appends, read back from a written
    feature: the last but one and the last attribute. *)
Definition written_location_id (out : Feature) : option QVariant :=
  attributes out !! (length (attributes out) - 2)%nat.

Definition written_count_id (out : Feature) : option QVariant :=
  attributes out !! (length (attributes out) - 1)%nat.

(** [feature[name]]: the attribute at the position of the field [name]. *)
Definition attribute_by_name (fields : list QgsField) (name : string)
    (out : Feature) : option QVariant :=
  k ← field_index fields name; attributes out !! k.

(** The number of written features whose [location_id] is [v]. *)
Definition records_with (v : QVariant) (written : list Feature) : Z :=
  Z.of_nat (length (filter (λ out, written_location_id out = Some v) written)).

(** The number of written features whose [location_id] is not null. *)
Definition records_assigned (written : list Feature) : Z :=
  Z.of_nat (length (filter (λ out, written_location_id out ≠ Some QNull) written)).

(** [sum(location_id_count.values())]. *)
Definition total_count (count : gmap Z Z) : Z :=
  map_fold (λ _ c acc, c + acc) 0 count.

End Reading.

(** * Properties of the pipeline *)

Section Facts.
Context `{GeometryEngine}.

(** *** The loops, in closed form *)

Lemma buffer_loop_spec (features : list Feature) :
  ∀ index num_features d acc,
    num_features ≠ 0 ∨ features = [] →
    buffer_loop features index num_features d acc
    = Completed (acc ++ buffers_of features d).
Proof.
  induction features as [|f rest IH]; intros index n d acc Hn; simpl.
  - by rewrite app_nil_r.
  - destruct Hn as [Hn|Hn]; [|discriminate].
    unfold progress_fraction.
    destruct (Z.eqb_spec n 0) as [->|_]; [done|].
    simpl. rewrite IH; [|by left].
    by rewrite <- app_assoc.
Qed.

Lemma create_buffers_spec (input_layer : list Feature) (d : Q) :
  create_buffers input_layer d = Completed (buffers_of input_layer d).
Proof.
  unfold create_buffers. rewrite buffer_loop_spec; [done|].
  destruct input_layer; [by right|left; simpl; lia].
Qed.

Lemma emit_spec layer idx count (input_layer : list Feature) :
  emit layer idx count input_layer
  = map (emit_feature layer idx count) input_layer.
Proof.
  unfold emit.
  enough (G : ∀ acc, foldl (λ sink f, sink ++ [emit_feature layer idx count f])
                           acc input_layer
                     = acc ++ map (emit_feature layer idx count) input_layer)
    by apply (G []).
  induction input_layer as [|f rest IH]; intros acc; simpl.
  - by rewrite app_nil_r.
  - rewrite IH. by rewrite <- app_assoc.
Qed.

(** The run never raises: its result is the record of the three loops. *)
Lemma processAlgorithm_spec (input_layer : list Feature) (d : Q) :
  processAlgorithm input_layer d
  = let layer := number_singleparts
                   (to_singleparts (unaryUnion (buffers_of input_layer d))) 1 [] in
    let idx := build_index layer in
    let count := tally layer idx input_layer in
    Completed (mkRun layer count (map (emit_feature layer idx count) input_layer)).
Proof.
  unfold processAlgorithm. rewrite create_buffers_spec. simpl.
  by rewrite emit_spec.
Qed.

(** *** Numbering the singleparts *)

Lemma number_singleparts_location_ids (geoms : list QgsGeometry) :
  ∀ k layer,
    location_id <$> number_singleparts geoms k layer
    = (location_id <$> layer) ++ seqZ k (Z.of_nat (length geoms)).
Proof.
  induction geoms as [|g rest IH]; intros k layer.
  - simpl. by rewrite app_nil_r.
  - cbn [number_singleparts]. rewrite IH. unfold addFeature.
    rewrite fmap_app, <- app_assoc. f_equal. cbn [fmap list_fmap location_id app length].
    rewrite (seqZ_cons k) by lia. do 2 f_equal; lia.
Qed.

Lemma number_singleparts_geometries (geoms : list QgsGeometry) :
  ∀ k layer,
    sp_geometry <$> number_singleparts geoms k layer
    = (sp_geometry <$> layer) ++ geoms.
Proof.
  induction geoms as [|g rest IH]; intros k layer.
  - simpl. by rewrite app_nil_r.
  - cbn [number_singleparts]. rewrite IH. unfold addFeature.
    by rewrite fmap_app, <- app_assoc.
Qed.

(** *** The set of candidate ids and its minimum *)

Lemma location_ids_agree layer idx (geom : QgsGeometry) :
  tally_location_ids layer idx geom = emit_location_ids layer idx geom.
Proof. reflexivity. Qed.

Lemma elem_of_emit_location_ids layer idx (geom : QgsGeometry) (x : Z) :
  x ∈ emit_location_ids layer idx geom ↔ exactly_intersecting layer idx geom x.
Proof.
  unfold emit_location_ids, exactly_intersecting.
  generalize (indexIntersects idx (boundingBox geom)) as ids.
  intros ids.
  enough (G : ∀ acc : gset Z,
    x ∈ foldl (λ (location_ids : gset Z) id,
                 match getFeature layer id with
                 | Some sf => if intersects (sp_geometry sf) geom
                              then location_ids ∪ {[ location_id sf ]}
                              else location_ids
                 | None => location_ids
                 end) acc ids
    ↔ x ∈ acc ∨ ∃ id sf, id ∈ ids ∧ getFeature layer id = Some sf
                         ∧ intersects (sp_geometry sf) geom = true
                         ∧ location_id sf = x).
  { rewrite G. split; [|by right].
    intros [Hx|Hx]; [by apply not_elem_of_empty in Hx|done]. }
  induction ids as [|id rest IH]; intros acc; simpl.
  - split; [by left|]. intros [?|(id & sf & Hin & _)]; [done|]. by apply elem_of_nil in Hin.
  - rewrite IH. split.
    + intros [Hacc|(id' & sf & Hin & Hget & Hint & Hloc)].
      * destruct (getFeature layer id) as [sf|] eqn:Hget; [|by left].
        destruct (intersects (sp_geometry sf) geom) eqn:Hint; [|by left].
        apply elem_of_union in Hacc as [?|Hx]; [by left|].
        apply elem_of_singleton in Hx. right. exists id, sf.
        split; [apply list_elem_of_here|done].
      * right. exists id', sf. split; [by apply list_elem_of_further|done].
    + intros [Hacc|(id' & sf & Hin & Hget & Hint & Hloc)].
      * left. destruct (getFeature layer id) as [sf|]; [|done].
        destruct (intersects (sp_geometry sf) geom); [|done].
        apply elem_of_union. by left.
      * apply elem_of_cons in Hin as [->|Hin].
        -- left. rewrite Hget, Hint. apply elem_of_union. right.
           by apply elem_of_singleton.
        -- right. by exists id', sf.
Qed.

Lemma foldl_min_spec (xs : list Z) :
  ∀ x, (foldl Z.min x xs = x ∨ foldl Z.min x xs ∈ xs)
       ∧ foldl Z.min x xs ≤ x
       ∧ ∀ y, y ∈ xs → foldl Z.min x xs ≤ y.
Proof.
  induction xs as [|z rest IH]; intros x; simpl.
  - split; [by left|]. split; [lia|]. intros y Hy. by apply elem_of_nil in Hy.
  - destruct (IH (Z.min x z)) as (Hin & Hle & Hall).
    split; [|split].
    + destruct Hin as [Heq|Hin].
      * rewrite Heq. destruct (Z.min_spec x z) as [[_ ->]|[_ ->]];
          [by left|right; apply list_elem_of_here].
      * right. by apply list_elem_of_further.
    + lia.
    + intros y Hy. apply elem_of_cons in Hy as [->|Hy]; [lia|by apply Hall].
Qed.

Lemma set_min_spec (s : gset Z) :
  s ≠ ∅ → set_min s ∈ s ∧ ∀ x, x ∈ s → set_min s ≤ x.
Proof.
  intros Hne. unfold set_min.
  destruct (elements s) as [|x xs] eqn:E.
  - by apply elements_empty_inv, leibniz_equiv in E.
  - destruct (foldl_min_spec xs x) as (Hin & Hle & Hall). split.
    + apply elem_of_elements. rewrite E.
      destruct Hin as [->|Hin]; [apply list_elem_of_here|by apply list_elem_of_further].
    + intros y Hy. apply elem_of_elements in Hy. rewrite E in Hy.
      apply elem_of_cons in Hy as [->|Hy]; [done|by apply Hall].
Qed.

Lemma emit_assignment_least layer idx count (f : Feature) :
  least_or_none (exactly_intersecting layer idx (geometry f))
                (fst (emit_assignment layer idx count f)).
Proof.
  unfold emit_assignment. cbv zeta.
  case_bool_decide as Hne; simpl.
  - destruct (set_min_spec _ Hne) as [Hin Hmin]. split.
    + by apply elem_of_emit_location_ids.
    + intros x Hx. by apply Hmin, elem_of_emit_location_ids.
  - intros x Hx. apply elem_of_emit_location_ids in Hx.
    rewrite Hne in Hx. by apply not_elem_of_empty in Hx.
Qed.

Lemma tally_emit_assignment layer idx count count' (f : Feature) :
  fst (tally_feature layer idx count f) = fst (emit_assignment layer idx count' f).
Proof.
  unfold tally_feature, emit_assignment. cbv zeta.
  rewrite location_ids_agree.
  case_bool_decide; [|done].
  by destruct (count !! set_min _).
Qed.

(** *** The tally *)

Lemma tally_assignment_any_count layer idx count (f : Feature) :
  fst (tally_feature layer idx count f) = tally_assignment layer idx f.
Proof.
  unfold tally_assignment.
  rewrite (tally_emit_assignment layer idx count ∅ f).
  rewrite (tally_emit_assignment layer idx ∅ ∅ f). done.
Qed.

Lemma tally_feature_count layer idx count (f : Feature) :
  snd (tally_feature layer idx count f)
  = match tally_assignment layer idx f with
    | Some a => <[a := default 0 (count !! a) + 1]> count
    | None => count
    end.
Proof.
  rewrite <- (tally_assignment_any_count layer idx count f).
  unfold tally_feature. cbv zeta.
  case_bool_decide; [|done].
  destruct (count !! set_min _) eqn:E; simpl; rewrite ?E; done.
Qed.

Lemma points_assigned_nonneg layer idx (l : list Feature) R :
  0 ≤ points_assigned layer idx l R.
Proof. unfold points_assigned. lia. Qed.

Lemma points_assigned_cons layer idx (f : Feature) l R :
  points_assigned layer idx (f :: l) R
  = (if decide (tally_assignment layer idx f = Some R) then 1 else 0)
    + points_assigned layer idx l R.
Proof.
  unfold points_assigned. rewrite filter_cons.
  destruct (decide (tally_assignment layer idx f = Some R)); simpl; lia.
Qed.

Lemma points_assigned_elem layer idx (l : list Feature) (f : Feature) R :
  f ∈ l → tally_assignment layer idx f = Some R →
  1 ≤ points_assigned layer idx l R.
Proof.
  intros Hin Ha. induction l as [|g l IH]; [by apply elem_of_nil in Hin|].
  rewrite points_assigned_cons.
  pose proof (points_assigned_nonneg layer idx l R).
  apply elem_of_cons in Hin as [<-|Hin].
  - rewrite decide_True by done. lia.
  - specialize (IH Hin). destruct (decide _); lia.
Qed.

Lemma tally_fold layer idx (l : list Feature) :
  ∀ (acc : gmap Z Z) R,
    foldl (λ count f, snd (tally_feature layer idx count f)) acc l !! R
    = if decide (points_assigned layer idx l R = 0) then acc !! R
      else Some (default 0 (acc !! R) + points_assigned layer idx l R).
Proof.
  induction l as [|f l IH]; intros acc R.
  - by rewrite decide_True.
  - cbn [foldl]. rewrite IH, points_assigned_cons, tally_feature_count.
    pose proof (points_assigned_nonneg layer idx l R) as Hnn.
    destruct (tally_assignment layer idx f) as [a|] eqn:Ha.
    + destruct (decide (a = R)) as [->|Hne].
      * rewrite (decide_True (P := (Some R = Some R))) by done.
        rewrite lookup_insert_eq. simpl.
        rewrite (decide_False (P := (1 + _ = 0))) by lia.
        destruct (decide (points_assigned layer idx l R = 0)) as [->|_];
          f_equal; lia.
      * rewrite (decide_False (P := (Some a = Some R))) by congruence.
        rewrite lookup_insert_ne by done.
        by rewrite Z.add_0_l.
    + rewrite (decide_False (P := (None = Some R))) by done.
      by rewrite Z.add_0_l.
Qed.

Lemma tally_lookup layer idx (input_layer : list Feature) R :
  tally layer idx input_layer !! R
  = if decide (points_assigned layer idx input_layer R = 0) then None
    else Some (points_assigned layer idx input_layer R).
Proof.
  unfold tally. rewrite tally_fold, lookup_empty. simpl.
  destruct (decide _); [done|]. by rewrite Z.add_0_l.
Qed.

(** *** A layer whose geometries intersect nothing *)

Lemma getFeature_elem (layer : list Singlepart) id sf :
  getFeature layer id = Some sf → sf ∈ layer.
Proof.
  unfold getFeature. intros Hfind.
  apply find_some in Hfind as [Hin _]. by apply list_elem_of_In.
Qed.



Lemma emit_feature_eq layer idx count (f : Feature) :
  emit_feature layer idx count f
  = mkFeature (geometry f)
              (attributes f
                 ++ [variant_of (fst (emit_assignment layer idx count f));
                     QInt (snd (emit_assignment layer idx count f))]).
Proof. unfold emit_feature. by destruct (emit_assignment layer idx count f). Qed.


(** *** An index without false negatives

    The index is a coarse filter.  When it misses no singlepart that
    intersects the point, the candidates that pass the exact test are all
    the singleparts that intersect the point. *)

Lemma number_singleparts_ids (geoms : list QgsGeometry) :
  ∀ k layer,
    sp_id <$> number_singleparts geoms k layer
    = (sp_id <$> layer)
        ++ seqZ (Z.of_nat (length layer) + 1) (Z.of_nat (length geoms)).
Proof.
  induction geoms as [|g rest IH]; intros k layer.
  - simpl. by rewrite app_nil_r.
  - cbn [number_singleparts]. rewrite IH. unfold addFeature.
    rewrite fmap_app, <- app_assoc, length_app. f_equal.
    cbn [fmap list_fmap sp_id app length].
    rewrite (seqZ_cons (Z.of_nat (length layer) + 1)) by lia.
    do 2 f_equal; lia.
Qed.

Lemma getFeature_unique (layer : list Singlepart) sf :
  NoDup (sp_id <$> layer) → sf ∈ layer → getFeature layer (sp_id sf) = Some sf.
Proof.
  unfold getFeature. induction layer as [|a l IH]; intros Hnd Hin.
  - by apply elem_of_nil in Hin.
  - rewrite fmap_cons in Hnd. apply NoDup_cons in Hnd as [Hfresh Hnd].
    cbn [find]. destruct (Z.eqb_spec (sp_id a) (sp_id sf)) as [Heq|Hne].
    + apply elem_of_cons in Hin as [->|Hin]; [done|].
      exfalso. apply Hfresh. rewrite Heq. by apply list_elem_of_fmap_2.
    + apply elem_of_cons in Hin as [->|Hin]; [done|]. by apply IH.
Qed.

Lemma exactly_intersecting_complete layer idx (geom : QgsGeometry) (x : Z) :
  NoDup (sp_id <$> layer) →
  (∀ sf, sf ∈ layer → intersects (sp_geometry sf) geom = true →
         sp_id sf ∈ indexIntersects idx (boundingBox geom)) →
  exactly_intersecting layer idx geom x
  ↔ ∃ sf, sf ∈ layer ∧ intersects (sp_geometry sf) geom = true
           ∧ location_id sf = x.
Proof.
  intros Hnd Hcomplete. split.
  - intros (id & sf & _ & Hget & Hint & Hloc).
    exists sf. split; [by apply getFeature_elem in Hget|done].
  - intros (sf & Hin & Hint & Hloc).
    exists (sp_id sf), sf. split; [by apply Hcomplete|].
    split; [by apply getFeature_unique|done].
Qed.

End Facts.

(** * The claims *)

Section Claims.
Context `{GeometryEngine}.

(** C1.  Every run writes exactly one output feature per input feature, in
    input order; the i-th output feature has the geometry of the i-th
    input feature and its attribute list, unchanged, followed by the two
    new values [location_id] and [count_id]. *)
Theorem output_follows_input (input_layer : list Feature) (d : Q) :
  ∃ r, processAlgorithm input_layer d = Completed r
       ∧ length (sink r) = length input_layer
       ∧ ∀ i f, input_layer !! i = Some f →
           ∃ out a c,
             sink r !! i = Some out
             ∧ geometry out = geometry f
             ∧ attributes out = attributes f ++ [variant_of a; QInt c].
Proof.
  rewrite processAlgorithm_spec. cbv zeta. eexists. split; [reflexivity|].
  cbn [sink]. split; [apply length_map|].
  intros i f Hf.
  rewrite list_lookup_fmap, Hf. cbn [fmap option_fmap option_map].
  rewrite emit_feature_eq.
  eexists _, _, _. split; [reflexivity|]. split; reflexivity.
Qed.

(** C2.  The region id written for a point is the minimum of the set of
    ids of the regions that exactly intersect the point (among those the
    index reports for it) when that set is non-empty, and null when it is
    empty. *)
Theorem assigned_id_is_minimum (input_layer : list Feature) (d : Q) :
  ∃ r, processAlgorithm input_layer d = Completed r
       ∧ ∀ i f, input_layer !! i = Some f →
           ∃ a c,
             sink r !! i
             = Some (mkFeature (geometry f)
                               (attributes f ++ [variant_of a; QInt c]))
             ∧ least_or_none
                 (exactly_intersecting (singlepart_layer r)
                                       (build_index (singlepart_layer r))
                                       (geometry f)) a.
Proof.
  rewrite processAlgorithm_spec. cbv zeta. eexists. split; [reflexivity|].
  cbn [sink singlepart_layer]. intros i f Hf.
  rewrite list_lookup_fmap, Hf. cbn [fmap option_fmap option_map].
  rewrite emit_feature_eq.
  eexists _, _. split; [reflexivity|]. apply emit_assignment_least.
Qed.


(** C4.  For the same singlepart layer and spatial index, the tally loop
    and the output loop assign the same (possibly null) region id to a
    point, whatever the dictionary holds at either moment. *)
Theorem both_passes_agree (layer : list Singlepart)
    (spatial_index : QgsSpatialIndex) (count_during count_final : gmap Z Z)
    (input_feature : Feature) :
  fst (tally_feature layer spatial_index count_during input_feature)
  = fst (emit_assignment layer spatial_index count_final input_feature).
Proof.
  unfold tally_feature, emit_assignment. cbv zeta.
  assert (tally_location_ids layer spatial_index (geometry input_feature)
          = emit_location_ids layer spatial_index (geometry input_feature))
    as -> by reflexivity.
  case_bool_decide; [|reflexivity].
  destruct (count_during !! set_min _); reflexivity.
Qed.

(** C5, as the code has it.  A negative distance is not rejected: the run
    completes like any other and writes one output feature per input
    feature. *)
Theorem negative_distance_runs (input_layer : list Feature) (d : Q) :
  (d < 0)%Q →
  ∃ r, processAlgorithm input_layer d = Completed r
       ∧ length (sink r) = length input_layer.
Proof.
  intros _. rewrite processAlgorithm_spec. cbv zeta.
  eexists. split; [reflexivity|]. cbn [sink]. apply length_map.
Qed.



(** C8.  The regions of a run are numbered 1, 2, ..., N in the order the
    singleparts are produced: the k-th singlepart geometry is stored with
    [location_id] k, and no id occurs twice. *)
Theorem region_ids_consecutive (input_layer : list Feature) (d : Q) :
  ∃ r, processAlgorithm input_layer d = Completed r
       ∧ location_id <$> singlepart_layer r
         = seqZ 1 (Z.of_nat (length (singlepart_layer r)))
       ∧ sp_geometry <$> singlepart_layer r
         = to_singleparts (unaryUnion (buffers_of input_layer d))
       ∧ NoDup (location_id <$> singlepart_layer r).
Proof.
  rewrite processAlgorithm_spec. cbv zeta. eexists. split; [reflexivity|].
  cbn [singlepart_layer].
  set (geoms := to_singleparts _).
  assert (Hgeoms : sp_geometry <$> number_singleparts geoms 1 [] = geoms)
    by apply number_singleparts_geometries.
  assert (Hids : location_id <$> number_singleparts geoms 1 []
                 = seqZ 1 (Z.of_nat (length (number_singleparts geoms 1 [])))).
  { rewrite number_singleparts_location_ids. simpl. f_equal.
    rewrite <- (length_fmap sp_geometry (number_singleparts _ _ _)).
    by rewrite Hgeoms. }
  split; [exact Hids|]. split; [exact Hgeoms|].
  rewrite Hids. apply NoDup_seqZ.
Qed.

(** C10.  In every output feature a non-null region id comes with a count
    of at least 1, and a null region id with the count 0. *)
Theorem count_matches_assignment (input_layer : list Feature) (d : Q) :
  ∃ r, processAlgorithm input_layer d = Completed r
       ∧ length (sink r) = length input_layer
       ∧ ∀ i f, input_layer !! i = Some f →
           ∃ a c,
             sink r !! i
             = Some (mkFeature (geometry f)
                               (attributes f ++ [variant_of a; QInt c]))
             ∧ match a with
               | Some _ => 1 ≤ c
               | None => c = 0
               end.
Proof.
  rewrite processAlgorithm_spec. cbv zeta. eexists. split; [reflexivity|].
  cbn [sink]. split; [apply length_map|].
  intros i f Hf.
  set (layer := number_singleparts _ 1 []).
  set (idx := build_index layer).
  eexists (fst (emit_assignment layer idx (tally layer idx input_layer) f)),
          (snd (emit_assignment layer idx (tally layer idx input_layer) f)).
  rewrite list_lookup_fmap, Hf. cbn [fmap option_fmap option_map].
  split; [by rewrite emit_feature_eq|].
  pose proof (tally_emit_assignment layer idx ∅ (tally layer idx input_layer) f)
    as Hsame.
  fold (tally_assignment layer idx f) in Hsame.
  unfold emit_assignment in *. cbv zeta in *.
  case_bool_decide; cbn [fst snd] in *; [|done].
  rewrite tally_lookup.
  pose proof (points_assigned_elem layer idx input_layer f _
                (list_elem_of_lookup_2 _ _ _ Hf) Hsame) as Hpos.
  rewrite decide_False by lia. simpl. lia.
Qed.

(** The minimum, taken over the whole layer.  When the spatial index of the run
    misses no region that intersects a point (it may report more), the id
    written for the point is the least [location_id] among all regions
    whose geometry intersects the point, and null when there is none. *)
Corollary assigned_id_is_minimum_of_all (input_layer : list Feature) (d : Q) :
  ∃ r, processAlgorithm input_layer d = Completed r
       ∧ ∀ i f, input_layer !! i = Some f →
           (∀ sf, sf ∈ singlepart_layer r →
                  intersects (sp_geometry sf) (geometry f) = true →
                  sp_id sf ∈ indexIntersects (build_index (singlepart_layer r))
                                             (boundingBox (geometry f))) →
           ∃ a c,
             sink r !! i
             = Some (mkFeature (geometry f)
                               (attributes f ++ [variant_of a; QInt c]))
             ∧ least_or_none
                 (λ x, ∃ sf, sf ∈ singlepart_layer r
                             ∧ intersects (sp_geometry sf) (geometry f) = true
                             ∧ location_id sf = x) a.
Proof.
  rewrite processAlgorithm_spec. cbv zeta. eexists. split; [reflexivity|].
  cbn [sink singlepart_layer]. intros i f Hf Hcomplete.
  rewrite list_lookup_fmap, Hf. cbn [fmap option_fmap option_map].
  rewrite emit_feature_eq. eexists _, _. split; [reflexivity|].
  set (layer := number_singleparts _ 1 []) in *.
  assert (Hnd : NoDup (sp_id <$> layer)).
  { unfold layer. rewrite number_singleparts_ids. simpl. apply NoDup_seqZ. }
  pose proof (emit_assignment_least layer (build_index layer)
                (tally layer (build_index layer) input_layer) f) as Hleast.
  unfold least_or_none in *.
  destruct (fst (emit_assignment _ _ _ f)) as [m|].
  - destruct Hleast as [Hm Hmin]. split.
    + by apply (exactly_intersecting_complete layer _ _ m Hnd Hcomplete).
    + intros x Hx. apply Hmin.
      by apply (exactly_intersecting_complete layer _ _ x Hnd Hcomplete).
  - intros x Hx. apply (Hleast x).
    by apply (exactly_intersecting_complete layer _ _ x Hnd Hcomplete).
Qed.

End Claims.

(** * Further properties of the run *)

Section Further.
Context `{GeometryEngine}.

(** *** Reading the two appended values back *)

Lemma written_location_id_app (g : QgsGeometry) attrs x y :
  written_location_id (mkFeature g (attrs ++ [x; y])) = Some x.
Proof.
  unfold written_location_id. cbn [attributes]. rewrite length_app. simpl.
  replace (length attrs + 2 - 2)%nat with (length attrs) by lia.
  by apply list_lookup_middle.
Qed.

Lemma written_count_id_app (g : QgsGeometry) attrs x y :
  written_count_id (mkFeature g (attrs ++ [x; y])) = Some y.
Proof.
  unfold written_count_id. cbn [attributes]. rewrite length_app. simpl.
  replace (length attrs + 2 - 1)%nat with (length (attrs ++ [x])) 
    by (rewrite length_app; simpl; lia).
  change (attrs ++ [x; y]) with (attrs ++ [x] ++ [y]).
  rewrite app_assoc. by apply list_lookup_middle.
Qed.

Lemma emit_assignment_fst layer idx count (f : Feature) :
  fst (emit_assignment layer idx count f) = tally_assignment layer idx f.
Proof. unfold tally_assignment. symmetry. apply tally_emit_assignment. Qed.

Lemma emit_assignment_snd layer idx count (f : Feature) :
  snd (emit_assignment layer idx count f)
  = match tally_assignment layer idx f with
    | Some a => default 0 (count !! a)
    | None => 0
    end.
Proof.
  rewrite <- (emit_assignment_fst layer idx count f).
  unfold emit_assignment. cbv zeta. by case_bool_decide.
Qed.

Lemma written_location_id_emit layer idx count (f : Feature) :
  written_location_id (emit_feature layer idx count f)
  = Some (variant_of (tally_assignment layer idx f)).
Proof.
  by rewrite emit_feature_eq, written_location_id_app, emit_assignment_fst.
Qed.

Lemma written_count_id_emit layer idx count (f : Feature) :
  written_count_id (emit_feature layer idx count f)
  = Some (QInt (snd (emit_assignment layer idx count f))).
Proof. by rewrite emit_feature_eq, written_count_id_app. Qed.

Lemma variant_of_int (a : option Z) (R : Z) : variant_of a = QInt R ↔ a = Some R.
Proof. destruct a; simpl; split; congruence. Qed.

Lemma variant_of_null (a : option Z) : variant_of a = QNull ↔ a = None.
Proof. destruct a; simpl; split; congruence. Qed.

Lemma length_filter_map {A B} (g : A → B) (P : B → Prop) (Q : A → Prop)
    `{!∀ y, Decision (P y), !∀ x, Decision (Q x)} (l : list A) :
  (∀ x, P (g x) ↔ Q x) →
  length (filter P (map g l)) = length (filter Q l).
Proof.
  intros Hiff. induction l as [|x l IH]; [done|].
  cbn [map]. rewrite !filter_cons.
  destruct (decide (P (g x))) as [HP|HP], (decide (Q x)) as [HQ|HQ];
    cbn [length]; rewrite ?IH; try done.
  - by apply Hiff in HP.
  - by apply Hiff in HQ.
Qed.

Lemma records_with_emit layer idx count (l : list Feature) (R : Z) :
  records_with (QInt R) (map (emit_feature layer idx count) l)
  = points_assigned layer idx l R.
Proof.
  unfold records_with, points_assigned. f_equal.
  apply length_filter_map. intros f.
  rewrite written_location_id_emit. split.
  - intros [= Hv]. by apply variant_of_int.
  - intros Ha. f_equal. by apply variant_of_int.
Qed.

(** *** The sum of the counts *)

Lemma total_count_bump (count : gmap Z Z) (a : Z) :
  total_count (<[a := default 0 (count !! a) + 1]> count) = total_count count + 1.
Proof.
  unfold total_count.
  destruct (count !! a) as [c|] eqn:Ha; simpl.
  - rewrite <- insert_delete_eq.
    rewrite map_fold_insert_L; [|intros; lia|apply lookup_delete_eq].
    rewrite (map_fold_delete_L _ _ a c count); [lia|intros; lia|done].
  - rewrite map_fold_insert_L; [lia|intros; lia|done].
Qed.

Lemma tally_total layer idx (l : list Feature) :
  ∀ acc : gmap Z Z,
    total_count (foldl (λ count f, snd (tally_feature layer idx count f)) acc l)
    = total_count acc
      + Z.of_nat (length (filter (λ f, tally_assignment layer idx f ≠ None) l)).
Proof.
  induction l as [|f l IH]; intros acc.
  - simpl. lia.
  - cbn [foldl]. rewrite IH, tally_feature_count, filter_cons.
    destruct (tally_assignment layer idx f) as [a|] eqn:Ha.
    + rewrite total_count_bump, decide_True by done. cbn [length]. lia.
    + by rewrite decide_False by (intros Hc; by apply Hc).
Qed.

(** *** Where an assigned id comes from *)

Lemma tally_assignment_in_layer layer idx (f : Feature) (a : Z) :
  tally_assignment layer idx f = Some a →
  ∃ sf, sf ∈ layer ∧ location_id sf = a
        ∧ intersects (sp_geometry sf) (geometry f) = true.
Proof.
  rewrite <- (emit_assignment_fst layer idx ∅ f). intros Ha.
  pose proof (emit_assignment_least layer idx ∅ f) as Hleast.
  rewrite Ha in Hleast. destruct Hleast as [(id & sf & _ & Hget & Hint & Hloc) _].
  exists sf. split; [by apply getFeature_elem in Hget|done].
Qed.

Lemma points_assigned_pos layer idx (l : list Feature) (R : Z) :
  points_assigned layer idx l R ≠ 0 →
  ∃ f, f ∈ l ∧ tally_assignment layer idx f = Some R.
Proof.
  unfold points_assigned. intros Hne.
  destruct (filter (λ f, tally_assignment layer idx f = Some R) l) as [|f fs] eqn:E;
    [done|].
  assert (Hin : f ∈ filter (λ f, tally_assignment layer idx f = Some R) l)
    by (rewrite E; apply list_elem_of_here).
  apply list_elem_of_filter in Hin as [Ha Hin]. by exists f.
Qed.

Lemma tally_get layer idx (input_layer : list Feature) (R : Z) :
  default 0 (tally layer idx input_layer !! R) = points_assigned layer idx input_layer R.
Proof. rewrite tally_lookup. by destruct (decide _) as [->|_]. Qed.

Lemma run_layer_ids_in_range (geoms : list QgsGeometry) sf :
  sf ∈ number_singleparts geoms 1 [] →
  1 ≤ location_id sf ≤ Z.of_nat (length (number_singleparts geoms 1 [])).
Proof.
  intros Hin. apply (list_elem_of_fmap_2 location_id) in Hin.
  rewrite number_singleparts_location_ids in Hin. simpl in Hin.
  apply elem_of_seqZ in Hin.
  rewrite <- (length_fmap sp_geometry (number_singleparts _ _ _)).
  rewrite number_singleparts_geometries. simpl. lia.
Qed.

(** *** The extra properties *)

(** X1.  In the output of a run, the [count_id] of a feature with a
    non-null [location_id] is the number of output features that carry the
    same [location_id]; with a null [location_id] it is 0. *)
Theorem count_is_cluster_size (input_layer : list Feature) (d : Q) :
  ∃ r, processAlgorithm input_layer d = Completed r
       ∧ ∀ i out, sink r !! i = Some out →
           ∃ v c, written_location_id out = Some v
                  ∧ written_count_id out = Some (QInt c)
                  ∧ c = if decide (v = QNull) then 0
                        else records_with v (sink r).
Proof.
  rewrite processAlgorithm_spec. cbv zeta. eexists. split; [reflexivity|].
  cbn [sink]. intros i out Hout.
  set (layer := number_singleparts _ 1 []) in *.
  set (idx := build_index layer) in *.
  set (count := tally layer idx input_layer) in *.
  rewrite list_lookup_fmap in Hout.
  destruct (input_layer !! i) as [f|]; [|discriminate].
  injection Hout as <-.
  rewrite written_location_id_emit, written_count_id_emit.
  eexists _, _. split; [reflexivity|]. split; [reflexivity|].
  rewrite emit_assignment_snd.
  destruct (tally_assignment layer idx f) as [a|]; cbn [variant_of].
  - rewrite decide_False by done.
    rewrite records_with_emit. apply tally_get.
  - by rewrite decide_True.
Qed.

(** X2.  After a run the dictionary and the output agree: for every id [R]
    the count kept for [R] (0 when [R] is no key) is the number of output
    features written with [location_id] [R], and [R] is a key exactly when
    there is such a feature. *)
Theorem dictionary_matches_output (input_layer : list Feature) (d : Q) :
  ∃ r, processAlgorithm input_layer d = Completed r
       ∧ ∀ R, default 0 (location_id_count r !! R) = records_with (QInt R) (sink r)
              ∧ (location_id_count r !! R = None
                 ↔ records_with (QInt R) (sink r) = 0).
Proof.
  rewrite processAlgorithm_spec. cbv zeta. eexists. split; [reflexivity|].
  cbn [sink location_id_count]. intros R.
  rewrite records_with_emit. split; [apply tally_get|].
  rewrite tally_lookup. destruct (decide _); split; congruence.
Qed.

(** X3.  The counts of the dictionary add up to the number of output
    features with a non-null [location_id], which is at most the number of
    input features: every point is counted once or not at all. *)
Theorem counts_add_up (input_layer : list Feature) (d : Q) :
  ∃ r, processAlgorithm input_layer d = Completed r
       ∧ total_count (location_id_count r) = records_assigned (sink r)
       ∧ records_assigned (sink r) ≤ Z.of_nat (length input_layer).
Proof.
  rewrite processAlgorithm_spec. cbv zeta. eexists. split; [reflexivity|].
  cbn [sink location_id_count].
  set (layer := number_singleparts _ 1 []).
  set (idx := build_index layer).
  assert (Hsame : records_assigned
                    (map (emit_feature layer idx (tally layer idx input_layer))
                         input_layer)
                  = Z.of_nat (length (filter (λ f, tally_assignment layer idx f ≠ None)
                                             input_layer))).
  { unfold records_assigned. f_equal. apply length_filter_map. intros f.
    rewrite written_location_id_emit. split.
    - intros Hv Ha. apply Hv. by rewrite Ha.
    - intros Ha [= Hv]. by apply variant_of_null in Hv. }
  rewrite Hsame. split.
  - unfold tally. rewrite tally_total. unfold total_count.
    rewrite map_fold_empty. lia.
  - pose proof (length_filter (λ f, tally_assignment layer idx f ≠ None) input_layer).
    lia.
Qed.

(** X4.  With N regions in the singlepart layer, every key of the
    dictionary and every non-null [location_id] written to the output lies
    between 1 and N: no id is counted or written that is not the id of a
    region. *)
Theorem assigned_ids_in_range (input_layer : list Feature) (d : Q) :
  ∃ r, processAlgorithm input_layer d = Completed r
       ∧ (∀ R, is_Some (location_id_count r !! R) →
               1 ≤ R ≤ Z.of_nat (length (singlepart_layer r)))
       ∧ (∀ out R, out ∈ sink r → written_location_id out = Some (QInt R) →
                   1 ≤ R ≤ Z.of_nat (length (singlepart_layer r))).
Proof.
  rewrite processAlgorithm_spec. cbv zeta. eexists. split; [reflexivity|].
  cbn [sink location_id_count singlepart_layer].
  set (geoms := to_singleparts _).
  set (layer := number_singleparts geoms 1 []).
  set (idx := build_index layer).
  assert (Hrange : ∀ f a, tally_assignment layer idx f = Some a →
                          1 ≤ a ≤ Z.of_nat (length layer)).
  { intros f a Ha. apply tally_assignment_in_layer in Ha as (sf & Hin & <- & _).
    by apply run_layer_ids_in_range. }
  split.
  - intros R [c Hc]. rewrite tally_lookup in Hc.
    destruct (decide (points_assigned layer idx input_layer R = 0)) as [|Hne];
      [discriminate|].
    apply points_assigned_pos in Hne as (f & _ & Ha). by apply (Hrange f).
  - intros out R Hout Hv. apply list_elem_of_fmap in Hout as (f & -> & _).
    rewrite written_location_id_emit in Hv. injection Hv as Hv.
    apply variant_of_int in Hv. by apply (Hrange f).
Qed.

(** X6.  The buffering loop can raise in one way only: on its first
    feature, when the reported feature count is 0.  Otherwise it returns the
    buffers collected so far followed by one buffer per feature, in order.
    With the count of the layer itself, as the run takes it, it never
    raises. *)
Theorem buffering_raises_on_zero_count (features : list Feature)
    (index num_features : Z) (d : Q) (feature_buffers : list QgsGeometry) :
  buffer_loop features index num_features d feature_buffers
  = match features with
    | [] => Completed feature_buffers
    | _ :: _ =>
        if num_features =? 0 then Raised ZeroDivisionError
        else Completed (feature_buffers ++ buffers_of features d)
    end
  ∧ create_buffers features d = Completed (buffers_of features d).
Proof.
  split; [|apply create_buffers_spec].
  destruct features as [|f rest]; [done|].
  destruct (Z.eqb_spec num_features 0) as [->|Hne].
  - reflexivity.
  - apply buffer_loop_spec. by left.
Qed.

(** *** The coarse filter *)

Lemma location_ids_same_candidates layer idx idx' (geom : QgsGeometry) :
  (∀ id sf, getFeature layer id = Some sf →
            intersects (sp_geometry sf) geom = true →
            (id ∈ indexIntersects idx (boundingBox geom)
             ↔ id ∈ indexIntersects idx' (boundingBox geom))) →
  emit_location_ids layer idx geom = emit_location_ids layer idx' geom.
Proof.
  intros Hsame. apply set_eq. intros x.
  rewrite !elem_of_emit_location_ids. unfold exactly_intersecting.
  split; intros (id & sf & Hin & Hget & Hint & Hloc); exists id, sf;
    (split; [by apply (Hsame id sf Hget Hint)|done]).
Qed.

(** X5.  The index is a coarse filter and nothing more: two indexes that
    report the same singleparts among those that really intersect the point
    give the same assignment, the same dictionary update and the same
    output feature.  Candidates that fail the exact test, ids the layer
    does not hold, and the order and repetition of the reported ids have no
    effect. *)
Theorem index_is_only_a_filter (layer : list Singlepart)
    (idx idx' : QgsSpatialIndex) (count : gmap Z Z) (f : Feature) :
  (∀ id sf, getFeature layer id = Some sf →
            intersects (sp_geometry sf) (geometry f) = true →
            (id ∈ indexIntersects idx (boundingBox (geometry f))
             ↔ id ∈ indexIntersects idx' (boundingBox (geometry f)))) →
  tally_feature layer idx count f = tally_feature layer idx' count f
  ∧ emit_feature layer idx count f = emit_feature layer idx' count f.
Proof.
  intros Hsame. apply location_ids_same_candidates in Hsame.
  unfold tally_feature, emit_feature, emit_assignment. cbv zeta.
  rewrite !location_ids_agree, Hsame. done.
Qed.

(** X7.  The dictionary does not depend on the order in which the tally
    loop meets the points: for the same singlepart layer and index, any
    rearrangement of the input gives the same counts. *)
Theorem tally_order_independent (layer : list Singlepart)
    (idx : QgsSpatialIndex) (input_layer rearranged : list Feature) :
  input_layer ≡ₚ rearranged →
  tally layer idx input_layer = tally layer idx rearranged.
Proof.
  intros Hperm. apply map_eq. intros R. rewrite !tally_lookup.
  assert (points_assigned layer idx input_layer R
          = points_assigned layer idx rearranged R) as ->; [|done].
  unfold points_assigned. f_equal.
  apply Permutation_length. by apply filter_Permutation.
Qed.

(** X9.  Counting is additive: for the same singlepart layer and index,
    the count of every id over two inputs put one after the other is the
    sum of its counts over each of them (a missing key counting as 0). *)
Theorem tally_additive (layer : list Singlepart) (idx : QgsSpatialIndex)
    (first second : list Feature) (R : Z) :
  default 0 (tally layer idx (first ++ second) !! R)
  = default 0 (tally layer idx first !! R)
    + default 0 (tally layer idx second !! R).
Proof.
  rewrite !tally_get. unfold points_assigned.
  rewrite filter_app, length_app. lia.
Qed.

(** *** The output schema *)

Lemma lookup_second_last {A} (l : list A) (x y : A) :
  (l ++ [x; y]) !! S (length l) = Some y.
Proof.
  change (l ++ [x; y]) with (l ++ [x] ++ [y]). rewrite app_assoc.
  replace (S (length l)) with (length (l ++ [x]))
    by (rewrite length_app; simpl; lia).
  by apply list_lookup_middle.
Qed.

Lemma fields_append_fresh (fields : list QgsField) (field : QgsField) :
  field_name field ∉ field_name <$> fields →
  fields_append fields field = fields ++ [field].
Proof. intros Hfresh. unfold fields_append. by rewrite bool_decide_eq_false_2. Qed.

Lemma output_fields_fresh (input_fields : list QgsField) :
  "location_id" ∉ field_name <$> input_fields →
  "count_id" ∉ field_name <$> input_fields →
  output_fields input_fields
  = input_fields ++ [mkField "location_id" TInt; mkField "count_id" TInt].
Proof.
  intros Hloc Hcnt. unfold output_fields. cbv zeta.
  rewrite (fields_append_fresh input_fields) by done.
  rewrite fields_append_fresh.
  - by rewrite <- app_assoc.
  - rewrite fmap_app. intros [Hin|Hin]%elem_of_app; [done|].
    apply list_elem_of_singleton in Hin. discriminate.
Qed.

Lemma field_index_app_fresh (fields rest : list QgsField) (name : string) :
  name ∉ field_name <$> fields →
  field_index (fields ++ rest) name
  = (λ k, (length fields + k)%nat) <$> field_index rest name.
Proof.
  induction fields as [|fld fields IH]; intros Hfresh.
  - simpl. by destruct (field_index rest name).
  - rewrite fmap_cons in Hfresh. apply not_elem_of_cons in Hfresh as [Hne Hfresh].
    cbn [app field_index]. rewrite bool_decide_eq_false_2 by congruence.
    rewrite IH by done. by destruct (field_index rest name).
Qed.

(** X8.  When the input layer has no field called [location_id] or
    [count_id], the output schema is the input schema followed by these two
    integer fields.  Every output feature made from an input feature that
    has one attribute per input field then has one attribute per output
    field; read by field name, its [location_id] is the id the output loop
    assigned to that input feature and its [count_id] the count it looked
    up, which are the two values the loop appended; and the original
    values keep their positions. *)
Theorem output_matches_schema (input_fields : list QgsField)
    (input_layer : list Feature) (d : Q) :
  "location_id" ∉ field_name <$> input_fields →
  "count_id" ∉ field_name <$> input_fields →
  output_fields input_fields
  = input_fields ++ [mkField "location_id" TInt; mkField "count_id" TInt]
  ∧ ∃ r, processAlgorithm input_layer d = Completed r
         ∧ ∀ i f, input_layer !! i = Some f →
             length (attributes f) = length input_fields →
             ∃ out,
               sink r !! i = Some out
               ∧ length (attributes out) = length (output_fields input_fields)
               ∧ attribute_by_name (output_fields input_fields) "location_id" out
                 = Some (variant_of
                           (fst (emit_assignment (singlepart_layer r)
                                   (build_index (singlepart_layer r))
                                   (location_id_count r) f)))
               ∧ attribute_by_name (output_fields input_fields) "count_id" out
                 = Some (QInt
                           (snd (emit_assignment (singlepart_layer r)
                                   (build_index (singlepart_layer r))
                                   (location_id_count r) f)))
               ∧ attribute_by_name (output_fields input_fields) "location_id" out
                 = written_location_id out
               ∧ attribute_by_name (output_fields input_fields) "count_id" out
                 = written_count_id out
               ∧ ∀ k field, input_fields !! k = Some field →
                   attributes out !! k = attributes f !! k.
Proof.
  intros Hloc Hcnt. split; [by apply output_fields_fresh|].
  rewrite processAlgorithm_spec. cbv zeta.
  eexists. split; [reflexivity|].
  cbn [sink singlepart_layer location_id_count]. intros i f Hf Hlen.
  rewrite list_lookup_fmap, Hf. cbn [fmap option_fmap option_map].
  eexists. split; [reflexivity|].
  set (layer := number_singleparts _ 1 []).
  set (idx := build_index layer).
  set (count := tally layer idx input_layer).
  rewrite emit_feature_eq, written_location_id_app, written_count_id_app.
  rewrite output_fields_fresh by done.
  unfold attribute_by_name. cbn [attributes].
  rewrite !field_index_app_fresh by done. simpl.
  rewrite !Nat.add_0_r, <- Hlen, Nat.add_1_r.
  rewrite list_lookup_middle by done. rewrite lookup_second_last.
  split; [rewrite !length_app; simpl; lia|].
  do 4 (split; [reflexivity|]).
  intros k field Hk. pose proof (lookup_lt_Some _ _ _ Hk) as Hlt.
  apply lookup_app_l. lia.
Qed.

End Further.

(** * Runs on the line engine *)

Section LineRuns.
Import Line.

(** *** The scenarios of the specification *)

(** A single isolated point: one region, the point assigned to it, count 1. *)
Example single_point :
  processAlgorithm [feature_at 0 "a"] default_distance
  = Completed
      (mkRun [mkSinglepart 1 (mkGeom false [((-5 # 100000)%Q, (5 # 100000)%Q)]) 1]
             {[ 1 := 1 ]}
             [mkFeature (point 0) [QString "a"; QInt 1; QInt 1]]).
Proof. vm_compute. reflexivity. Qed.

(** Two points whose buffers overlap: one region, count 2 for both. *)
Example two_close_points :
  (λ r, (location_id <$> singlepart_layer r, attributes <$> sink r))
    <$> processAlgorithm [feature_at 0 "a"; feature_at (1 # 100000) "b"]
                         default_distance
  = Completed ([1], [[QString "a"; QInt 1; QInt 2]; [QString "b"; QInt 1; QInt 2]]).
Proof. vm_compute. reflexivity. Qed.

(** Two points far apart: two regions, each point in its own, count 1. *)
Example two_far_points :
  (λ r, (location_id <$> singlepart_layer r, attributes <$> sink r))
    <$> processAlgorithm [feature_at 0 "a"; feature_at 5 "b"] default_distance
  = Completed ([1; 2], [[QString "a"; QInt 1; QInt 1]; [QString "b"; QInt 2; QInt 1]]).
Proof. vm_compute. reflexivity. Qed.

(** Tie-break: a point that intersects the regions 7 and 3 gets 3. *)
Example tie_break :
  let layer := [mkSinglepart 1 (mkGeom false [(0, 2)%Q]) 7;
                mkSinglepart 2 (mkGeom false [(1, 3)%Q]) 3] in
  emit_assignment layer (build_index layer) {[ 3 := 4; 7 := 1 ]}
                  (feature_at (3 # 2) "p")
  = (Some 3, 4).
Proof. vm_compute. reflexivity. Qed.

(** *** C5: a negative distance *)

(** C5, counterexample.  With the distance -1 the run on one point is not
    rejected: it completes and writes the point, unassigned. *)
Lemma negative_distance_accepted :
  (-1 < 0)%Q
  ∧ processAlgorithm [feature_at 0 "a"] (-1)
    = Completed
        (mkRun [] ∅ [mkFeature (point 0) [QString "a"; QNull; QInt 0]]).
Proof. split; vm_compute; reflexivity. Qed.

(** C5, witness.  The amended statement at the distance -1 and one point. *)
Lemma negative_distance_runs_witness :
  (-1 < 0)%Q
  ∧ ∃ r, processAlgorithm [feature_at 0 "a"] (-1) = Completed r
         ∧ length (sink r) = length [feature_at 0 "a"].
Proof.
  split; [reflexivity|].
  apply (negative_distance_runs (H := engine) [feature_at 0 "a"] (-1)).
  reflexivity.
Defined.

(** *** C6: a degenerate union *)


(** Two features with empty geometries: no region, both written
    unassigned. *)
Example empty_features_run :
  processAlgorithm [empty_feature "a"; empty_feature "b"] default_distance
  = Completed
      (mkRun [] ∅
             [mkFeature (mkGeom false []) [QString "a"; QNull; QInt 0];
              mkFeature (mkGeom false []) [QString "b"; QNull; QInt 0]]).
Proof. vm_compute. reflexivity. Qed.


(** *** C7: no input feature *)



End LineRuns.

(** * Further runs on the line engine *)

Section LineFurther.
Import Line.

Lemma stale_entry_same_exact :
  ∀ id sf, getFeature two_regions id = Some sf →
           intersects (sp_geometry sf) (geometry (feature_at 1 "p")) = true →
           (id ∈ indexIntersects two_regions_index
                   (boundingBox (geometry (feature_at 1 "p")))
            ↔ id ∈ indexIntersects index_with_stale_entry
                     (boundingBox (geometry (feature_at 1 "p")))).
Proof.
  intros id sf Hget _.
  assert (Hne : id ≠ 9) by (intros ->; vm_compute in Hget; discriminate).
  assert (Hq : @indexIntersects engine index_with_stale_entry
                  (@boundingBox engine (geometry (feature_at 1 "p")))
                = 9 :: @indexIntersects engine two_regions_index
                         (@boundingBox engine (geometry (feature_at 1 "p"))))
    by reflexivity.
  rewrite Hq, elem_of_cons. split; [by right|]. by intros [?|?].
Qed.

(** X5, witness.  A point in the first of two regions, with the index of
    the layer and with the index that also reports a stale id. *)
Lemma index_is_only_a_filter_witness :
  (∀ id sf, getFeature two_regions id = Some sf →
            intersects (sp_geometry sf) (geometry (feature_at 1 "p")) = true →
            (id ∈ indexIntersects two_regions_index
                    (boundingBox (geometry (feature_at 1 "p")))
             ↔ id ∈ indexIntersects index_with_stale_entry
                      (boundingBox (geometry (feature_at 1 "p")))))
  ∧ tally_feature two_regions two_regions_index {[ 1 := 3 ]} (feature_at 1 "p")
    = tally_feature two_regions index_with_stale_entry {[ 1 := 3 ]}
                    (feature_at 1 "p")
  ∧ emit_feature two_regions two_regions_index {[ 1 := 3 ]} (feature_at 1 "p")
    = emit_feature two_regions index_with_stale_entry {[ 1 := 3 ]}
                   (feature_at 1 "p").
Proof.
  split; [exact stale_entry_same_exact|].
  apply (index_is_only_a_filter (H := engine) two_regions two_regions_index
           index_with_stale_entry {[ 1 := 3 ]} (feature_at 1 "p")).
  exact stale_entry_same_exact.
Defined.

(** X7, witness.  Two points, one in each region, in both orders. *)
Lemma tally_order_independent_witness :
  [feature_at 1 "a"; feature_at 6 "b"] ≡ₚ [feature_at 6 "b"; feature_at 1 "a"]
  ∧ tally two_regions two_regions_index [feature_at 1 "a"; feature_at 6 "b"]
    = tally two_regions two_regions_index [feature_at 6 "b"; feature_at 1 "a"].
Proof.
  split; [apply perm_swap|].
  apply (tally_order_independent (H := engine) two_regions two_regions_index).
  apply perm_swap.
Defined.

Lemma name_only_has_no_location_id : "location_id" ∉ field_name <$> name_only.
Proof. intros Hin. apply list_elem_of_singleton in Hin. discriminate. Qed.

Lemma name_only_has_no_count_id : "count_id" ∉ field_name <$> name_only.
Proof. intros Hin. apply list_elem_of_singleton in Hin. discriminate. Qed.

(** X8, witness.  One point with the one attribute [name]. *)
Lemma output_matches_schema_witness :
  ("location_id" ∉ field_name <$> name_only)
  ∧ ("count_id" ∉ field_name <$> name_only)
  ∧ output_fields name_only
    = name_only ++ [mkField "location_id" TInt; mkField "count_id" TInt]
  ∧ ∃ r, processAlgorithm [feature_at 0 "a"] default_distance = Completed r
         ∧ ∀ i f, [feature_at 0 "a"] !! i = Some f →
             length (attributes f) = length name_only →
             ∃ out,
               sink r !! i = Some out
               ∧ length (attributes out) = length (output_fields name_only)
               ∧ attribute_by_name (output_fields name_only) "location_id" out
                 = Some (variant_of
                           (fst (emit_assignment (singlepart_layer r)
                                   (build_index (singlepart_layer r))
                                   (location_id_count r) f)))
               ∧ attribute_by_name (output_fields name_only) "count_id" out
                 = Some (QInt
                           (snd (emit_assignment (singlepart_layer r)
                                   (build_index (singlepart_layer r))
                                   (location_id_count r) f)))
               ∧ attribute_by_name (output_fields name_only) "location_id" out
                 = written_location_id out
               ∧ attribute_by_name (output_fields name_only) "count_id" out
                 = written_count_id out
               ∧ ∀ k field, name_only !! k = Some field →
                   attributes out !! k = attributes f !! k.
Proof.
  split; [exact name_only_has_no_location_id|].
  split; [exact name_only_has_no_count_id|].
  apply (output_matches_schema (H := engine) name_only
           [feature_at 0 "a"] default_distance).
  - exact name_only_has_no_location_id.
  - exact name_only_has_no_count_id.
Defined.

(** The same run, read by field name: region 1 with one point. *)
Example read_by_name :
  (λ r, (attribute_by_name (output_fields name_only) "location_id" <$> sink r,
         attribute_by_name (output_fields name_only) "count_id" <$> sink r))
    <$> processAlgorithm [feature_at 0 "a"] default_distance
  = Completed ([Some (QInt 1)], [Some (QInt 1)]).
Proof. vm_compute. reflexivity. Qed.

End LineFurther.
